(** * TIRmite: hit pairing engine and command-line driver

    A shallow embedding of [tirmite/cmd_tirmite.py] (the [main] driver) and
    of the library routines it calls ([table2dict], [parseHits],
    [iterateGetPairs], [fetchElements], [writeTIRs], [writeElements],
    [gffWrite]).  The library routines live in the [tirmite] package, which
    is not part of the sources at hand; they are modelled from the
    specification and each such definition says so in its doc comment.

    Genomic coordinates are 0-based half-open natural numbers.  E-values are
    compared by rank only, so they are modelled as natural numbers (a lower
    value is a better hit). *)

From Stdlib Require Import List Arith Lia Bool String.
From Stdlib Require Import DecimalString.
Import ListNotations.

Open Scope string_scope.
Open Scope nat_scope.

(* ------------------------------------------------------------------ *)
(** ** Hit records and the hit index *)

Inductive Strand := Plus | Minus.

Definition strand_eqb (a b : Strand) : bool :=
  match a, b with
  | Plus, Plus | Minus, Minus => true
  | _, _ => false
  end.

(** One positional hit, as produced by [import_nhmmer] / [import_mapped]. *)
Record HitRecord := mkHitRecord {
  model : string;
  chrom : string;
  hstart : nat;
  hend : nat;
  strand : Strand;
  evalue : nat
}.

(** A hit of the index: the record plus the id assigned by the index. *)
Record Hit := mkHit {
  hid : nat;
  hrec : HitRecord
}.

(** Modelled from the spec: [table2dict] (HitIndexBuilder).  Ids are
    assigned in input order, starting from 0. *)
Definition index_hits (l : list HitRecord) : list Hit :=
  map (fun '(i, r) => mkHit i r) (combine (seq 0 (List.length l)) l).

Definition hkey (h : Hit) : string * string := (model (hrec h), chrom (hrec h)).

Definition key_eqb (a b : string * string) : bool :=
  String.eqb (fst a) (fst b) && String.eqb (snd a) (snd b).

Definition key_eq_dec (a b : string * string) : {a = b} + {a <> b}.
Proof. decide equality; apply string_dec. Defined.

(** The (model, chromosome) groups of the index. *)
Definition group_keys (idx : list Hit) : list (string * string) :=
  nodup key_eq_dec (map hkey idx).

Definition group_of (k : string * string) (idx : list Hit) : list Hit :=
  filter (fun h => key_eqb (hkey h) k) idx.

(* ------------------------------------------------------------------ *)
(** ** CandidateFinder ([parseHits]) *)

(** Gap between the nearer edges of two hits, [max 0 (...)] being the
    truncation of natural-number subtraction. *)
Definition gap (a b : Hit) : nat :=
  Nat.max (hstart (hrec a)) (hstart (hrec b))
  - Nat.min (hend (hrec a)) (hend (hrec b)).

(** Modelled from the spec: the candidate test of [parseHits]: same model
    and chromosome, opposite strand, a different hit, and within [maxDist]
    when it is set. *)
Definition compatible (maxDist : option nat) (a b : Hit) : bool :=
  key_eqb (hkey a) (hkey b)
  && negb (strand_eqb (strand (hrec a)) (strand (hrec b)))
  && negb (hid a =? hid b)
  && match maxDist with
     | None => true
     | Some d => gap a b <=? d
     end.

Definition candidates (maxDist : option nat) (g : list Hit) (h : Hit) : list Hit :=
  filter (compatible maxDist h) g.

(* ------------------------------------------------------------------ *)
(** ** PairingEngine ([iterateGetPairs]) *)

(** Pairing state of the index: the partner of each hit id, if any. *)
Definition Partner := nat -> option nat.

Definition unpairedb (p : Partner) (h : Hit) : bool :=
  match p (hid h) with None => true | Some _ => false end.

(** Candidates of [h] that are still unpaired. *)
Definition remaining (maxDist : option nat) (g : list Hit) (p : Partner) (h : Hit)
  : list Hit :=
  filter (unpairedb p) (candidates maxDist g h).

(** Ranking key of candidate [c] for hit [h]: e-value, then gap, then id. *)
Definition rank_key (h c : Hit) : nat * nat * nat := (evalue (hrec c), gap h c, hid c).

Definition key_leb (x y : nat * nat * nat) : bool :=
  let '(a1, b1, c1) := x in
  let '(a2, b2, c2) := y in
  (a1 <? a2) || ((a1 =? a2) && ((b1 <? b2) || ((b1 =? b2) && (c1 <=? c2)))).

Fixpoint best_in (h : Hit) (l : list Hit) : option Hit :=
  match l with
  | [] => None
  | c :: l' =>
      match best_in h l' with
      | None => Some c
      | Some b => if key_leb (rank_key h c) (rank_key h b) then Some c else Some b
      end
  end.

Definition find_hit (g : list Hit) (i : nat) : option Hit :=
  find (fun h => hid h =? i) g.

(** Best remaining candidate of hit id [i]. *)
Definition best_id (maxDist : option nat) (g : list Hit) (p : Partner) (i : nat)
  : option nat :=
  match find_hit g i with
  | Some h => option_map hid (best_in h (remaining maxDist g p h))
  | None => None
  end.

(** Partner found for the unpaired hit [i] in this round: its best choice,
    provided it is the best choice of that hit in turn. *)
Definition mutual (maxDist : option nat) (g : list Hit) (p : Partner) (i : nat)
  : option nat :=
  match best_id maxDist g p i with
  | Some j =>
      match best_id maxDist g p j with
      | Some i' => if i' =? i then Some j else None
      | None => None
      end
  | None => None
  end.

(** One round: all mutually-best pairs are committed simultaneously. *)
Definition round (maxDist : option nat) (g : list Hit) (p : Partner) : Partner :=
  fun i => match p i with
           | Some j => Some j
           | None => mutual maxDist g p i
           end.

Definition productive (maxDist : option nat) (g : list Hit) (p : Partner) : bool :=
  existsb (fun h => unpairedb p h
                    && match mutual maxDist g p (hid h) with Some _ => true | None => false end) g.

Record GState := mkGState {
  partner : Partner;
  idle : nat          (* consecutive unproductive rounds *)
}.

Definition has_open (maxDist : option nat) (g : list Hit) (p : Partner) : bool :=
  existsb (fun h => unpairedb p h
                    && match remaining maxDist g p h with [] => false | _ => true end) g.

Definition stop (stableReps : nat) (maxDist : option nat) (g : list Hit) (st : GState)
  : bool :=
  negb (has_open maxDist g (partner st)) || (S stableReps <=? idle st).

Definition step (maxDist : option nat) (g : list Hit) (st : GState) : GState :=
  let p := partner st in
  if productive maxDist g p
  then mkGState (round maxDist g p) 0
  else mkGState (round maxDist g p) (S (idle st)).

Fixpoint pair_loop (stableReps : nat) (maxDist : option nat) (g : list Hit)
  (fuel : nat) (st : GState) : GState :=
  match fuel with
  | 0 => st
  | S f => if stop stableReps maxDist g st then st
           else pair_loop stableReps maxDist g f (step maxDist g st)
  end.

Definition init_state : GState := mkGState (fun _ => None) 0.

Definition group_fuel (stableReps : nat) (g : list Hit) : nat :=
  S ((List.length g + 1) * (stableReps + 2)).

Definition run_group (stableReps : nat) (maxDist : option nat) (g : list Hit) : GState :=
  pair_loop stableReps maxDist g (group_fuel stableReps g) init_state.

(** Pairs of a group, each reported once with the lower id first. *)
Definition pairs_of (g : list Hit) (p : Partner) : list (nat * nat) :=
  flat_map (fun h => match p (hid h) with
                     | Some j => if hid h <? j then [(hid h, j)] else []
                     | None => []
                     end) g.

Definition unpaired_of (g : list Hit) (p : Partner) : list nat :=
  map hid (filter (unpairedb p) g).

Definition group_result (stableReps : nat) (maxDist : option nat) (g : list Hit)
  : list (nat * nat) * list nat :=
  let st := run_group stableReps maxDist g in
  (pairs_of g (partner st), unpaired_of g (partner st)).

(** Modelled from the spec: [iterateGetPairs], run over the candidates of
    [parseHits] with [maxDist]; each (model, chromosome) group is resolved
    on its own. *)
Definition iterateGetPairs (stableReps : nat) (maxDist : option nat) (idx : list Hit)
  : list (nat * nat) * list nat :=
  let rs := map (fun k => group_result stableReps maxDist (group_of k idx))
                (group_keys idx) in
  (List.concat (map fst rs), List.concat (map snd rs)).

Definition flatten_pairs (ps : list (nat * nat)) : list nat :=
  flat_map (fun '(a, b) => [a; b]) ps.

(* ------------------------------------------------------------------ *)
(** ** The pairing rules as a relation

    Modelled from the spec: the rules of the PairingEngine (section 4.3),
    stated without fixing how the best candidate is found: any procedure
    that picks, for each unpaired hit, a remaining candidate ranked first by
    e-value, then gap, then id, commits the mutually-best pairs and counts
    unproductive rounds is a run of the engine. *)

Definition IsBest (md : option nat) (g : list Hit) (p : Partner) (h c : Hit) : Prop :=
  In c (remaining md g p h) /\
  forall c', In c' (remaining md g p h) -> key_leb (rank_key h c) (rank_key h c') = true.

Definition BestChoice (md : option nat) (g : list Hit) (p : Partner) (i j : nat) : Prop :=
  exists h c, find_hit g i = Some h /\ IsBest md g p h c /\ hid c = j.

(** A choice of best candidate for every hit id. *)
Definition Chooser (md : option nat) (g : list Hit) (p : Partner) (b : nat -> option nat)
  : Prop :=
  forall i, (forall j, b i = Some j -> BestChoice md g p i j)
            /\ (b i = None -> forall j, ~ BestChoice md g p i j).

Definition RoundRel (md : option nat) (g : list Hit) (p p' : Partner) : Prop :=
  exists b, Chooser md g p b /\
    forall i, p' i = match p i with
                     | Some j => Some j
                     | None => match b i with
                               | Some j => match b j with
                                           | Some i' => if i' =? i then Some j else None
                                           | None => None
                                           end
                               | None => None
                               end
                     end.

Definition Productive (g : list Hit) (p p' : Partner) : Prop :=
  exists h, In h g /\ p (hid h) = None /\ p' (hid h) <> None.

Definition StepRel (md : option nat) (g : list Hit) (st st' : GState) : Prop :=
  RoundRel md g (partner st) (partner st') /\
  ((Productive g (partner st) (partner st') /\ idle st' = 0)
   \/ (~ Productive g (partner st) (partner st') /\ idle st' = S (idle st))).

Definition StopP (sr : nat) (md : option nat) (g : list Hit) (st : GState) : Prop :=
  (forall h, In h g -> partner st (hid h) = None -> remaining md g (partner st) h = [])
  \/ S sr <= idle st.

Inductive GroupRuns (sr : nat) (md : option nat) (g : list Hit) : GState -> GState -> Prop :=
| gr_stop st : StopP sr md g st -> GroupRuns sr md g st st
| gr_step st st1 st' : ~ StopP sr md g st -> StepRel md g st st1 ->
                       GroupRuns sr md g st1 st' -> GroupRuns sr md g st st'.

(** Two pairing states agree on every hit id and on the idle counter. *)
Definition same_state (s1 s2 : GState) : Prop :=
  (forall i, partner s1 i = partner s2 i) /\ idle s1 = idle s2.

Definition GroupOutcome (sr : nat) (md : option nat) (g : list Hit)
  (o : list (nat * nat) * list nat) : Prop :=
  exists st, GroupRuns sr md g init_state st
             /\ o = (pairs_of g (partner st), unpaired_of g (partner st)).

Definition EngineRel (sr : nat) (md : option nat) (idx : list Hit)
  (out : list (nat * nat) * list nat) : Prop :=
  exists os, Forall2 (fun k o => GroupOutcome sr md (group_of k idx) o) (group_keys idx) os
             /\ out = (List.concat (map fst os), List.concat (map snd os)).

(* ------------------------------------------------------------------ *)
(** ** ElementExtractor ([fetchElements]) and output naming *)

Record Element := mkElement {
  ele_model : string;
  ele_chrom : string;
  ele_start : nat;
  ele_end : nat;
  ele_left : nat;      (* hit id of the 5' arm *)
  ele_right : nat      (* hit id of the 3' arm *)
}.

(** Modelled from the spec: [fetchElements], one element per pair, spanning
    both arms; no e-value filter is involved. *)
Definition fetchElements (idx : list Hit) (paired : list (nat * nat)) : list Element :=
  flat_map (fun '(a, b) =>
              match find_hit idx a, find_hit idx b with
              | Some ha, Some hb =>
                  [mkElement (model (hrec ha)) (chrom (hrec ha))
                     (Nat.min (hstart (hrec ha)) (hstart (hrec hb)))
                     (Nat.max (hend (hrec ha)) (hend (hrec hb))) a b]
              | _, _ => []
              end) paired.

Definition string_of_nat (n : nat) : string := NilZero.string_of_uint (Nat.to_uint n).

(** Modelled from the spec: a supplied prefix is put in front of a
    generated name. *)
Definition with_prefix (prefix : option string) (s : string) : string :=
  match prefix with
  | Some p => p ++ "_" ++ s
  | None => s
  end.

Definition ele_leb (x y : Element) : bool :=
  String.ltb (ele_chrom x) (ele_chrom y)
  || (String.eqb (ele_chrom x) (ele_chrom y) && (ele_start x <=? ele_start y)).

Fixpoint insert_ele (e : Element) (l : list Element) : list Element :=
  match l with
  | [] => [e]
  | x :: l' => if ele_leb e x then e :: l else x :: insert_ele e l'
  end.

Definition sort_eles (l : list Element) : list Element := fold_right insert_ele [] l.

Fixpoint number_from {A} (n : nat) (l : list A) : list (A * nat) :=
  match l with
  | [] => []
  | x :: l' => (x, n) :: number_from (S n) l'
  end.

(** Modelled from the spec: element names of [writeElements] / [gffWrite],
    numbered in chromosome/position order. *)
Definition element_names (prefix : option string) (eles : list Element) : list string :=
  map (fun '(e, n) => with_prefix prefix (ele_model e ++ "_Element_" ++ string_of_nat n))
      (number_from 1 (sort_eles eles)).

(** Modelled from the spec: record names of [writeTIRs]: hits whose e-value
    passes [maxeval], numbered per output. *)
Definition tir_names (prefix : option string) (maxeval : nat) (hits : list Hit)
  : list string :=
  map (fun '(h, n) => with_prefix prefix (model (hrec h) ++ "_" ++ string_of_nat n))
      (number_from 1 (filter (fun h => evalue (hrec h) <=? maxeval) hits)).

(** Modelled from the spec: names of the unpaired TIR features of
    [gffWrite]. *)
Definition unpaired_names (prefix : option string) (idx : list Hit) (unpaired : list nat)
  : list string :=
  map (fun i => with_prefix prefix ("TIR_" ++ string_of_nat i)) unpaired.

(* ------------------------------------------------------------------ *)
(** ** The driver [main] *)

Inductive ReportTIR := RNone | RAll | RPaired | RUnpaired.

(** The command-line arguments [main] reads ([mainArgs]). *)
Record Args := mkArgs {
  hmmpress : string;
  nhmmer : string;
  hmmbuild : string;
  bowtie2 : string;
  bt2build : string;
  samtools : string;
  bedtools : string;
  useBowtie2 : bool;
  alnGiven : bool;            (* [args.alnDir or args.alnFile] *)
  stableReps : nat;
  prefix : option string;
  nopairing : bool;
  gffOut : option string;
  reportTIR : ReportTIR;
  keeptemp : bool;
  maxeval : nat;
  maxdist : option nat
}.

(** What the outside world answers: [shutil.which], the nhmmer result
    directory and the hits imported from it or from the bowtie2 mapping. *)
Record Env := mkEnv {
  on_path : string -> bool;
  result_dir : string;
  tab_files_exist : bool;     (* [glob.glob(resultDir/*.tab)] is non-empty *)
  nhmmer_hits : list HitRecord;
  mapped_hits : list HitRecord
}.

(** Observable effects of [main], in order. *)
Inductive Event :=
| Print (msg : string)
| DoChecks
| ImportFasta
| ConvertAlign
| RunCmds
| WriteTIRs (pfx : option string) (me : nat) (names : list string)
| ParseHits (md : option nat)
| IterateGetPairs_ev (sr : nat) (paired : list (nat * nat)) (unpaired : list nat)
| WriteElements (pfx : option string) (names : list string)
| FetchUnpaired
| GffWrite (path : string) (pfx : option string) (names : list string)
| RmTree.

(** Either the computation goes on with a value, or [sys.exit] was called. *)
Inductive Outcome (A : Type) := Ok (a : A) | Exit (code : nat).
Arguments Ok {A} a.
Arguments Exit {A} code.

Definition M (A : Type) : Type := (list Event * Outcome A)%type.

Definition ret {A} (a : A) : M A := ([], Ok a).

Definition bind {A B} (m : M A) (k : A -> M B) : M B :=
  match m with
  | (log, Ok a) => let '(log', r) := k a in (app log log', r)
  | (log, Exit c) => (log, Exit c)
  end.

Definition emit (e : Event) : M unit := ([e], Ok tt).

Definition sys_exit {A} (code : nat) : M A := ([], Exit code).

Notation "x <- m ;; k" := (bind m (fun x => k)) (at level 61, m at next level, right associativity).
Notation "m ;; k" := (bind m (fun _ => k)) (at level 61, right associativity).

Definition missing_tool (env : Env) (tool_name : string) : list string :=
  if on_path env tool_name then [] else [tool_name].

Definition tools (a : Args) : list string :=
  [hmmpress a; nhmmer a; hmmbuild a; bowtie2 a; bt2build a; samtools a; bedtools a].

Definition missing_tools (a : Args) (env : Env) : list string :=
  flat_map (missing_tool env) (tools a).

Definition warning_msg (missing : list string) : string :=
  "WARNING: Some tools required by tirmite could not be found: " ++ String.concat ", " missing.

(** Lines 64-72. *)
Definition check_tools (a : Args) (env : Env) : M unit :=
  match missing_tools a env with
  | [] => ret tt
  | missing =>
      emit (Print (warning_msg missing));;
      emit (Print "You may need to install them to use all features.")
  end.

(** Lines 80-113: run the search and import its hits. *)
Definition search_hits (a : Args) (env : Env) : M (list HitRecord) :=
  if useBowtie2 a then
    emit RunCmds;;
    ret (mapped_hits env)
  else
    (if alnGiven a then emit ConvertAlign else ret tt);;
    emit RunCmds;;
    if negb (tab_files_exist env) then
      emit (Print ("No hits found in " ++ result_dir env ++ " . Quitting."));;
      sys_exit 1
    else ret (nhmmer_hits env).

Definition rmtree_unless_keeptemp (a : Args) : M unit :=
  if keeptemp a then ret tt else emit RmTree.

(** Lines 141-150. *)
Definition write_gff (a : Args) (idx : list Hit) (pairedEles : list Element)
  (unpaired : list nat) : M unit :=
  match gffOut a with
  | Some out =>
      unpairedTIRs <- (match reportTIR a with
                       | RAll | RUnpaired => emit FetchUnpaired;; ret (Some unpaired)
                       | _ => ret None
                       end);;
      emit (GffWrite out (prefix a)
              (app (element_names (prefix a) pairedEles)
                   (match unpairedTIRs with
                    | Some u => unpaired_names (prefix a) idx u
                    | None => []
                    end)))
  | None => ret tt
  end.

Definition main (a : Args) (env : Env) : M unit :=
  check_tools a env;;
  emit DoChecks;;
  emit ImportFasta;;
  hitTable <- search_hits a env;;
  let hitIndex := index_hits hitTable in
  if nopairing a then
    (* line 120: [writeTIRs] is called without [prefix] *)
    emit (WriteTIRs None (maxeval a) (tir_names None (maxeval a) hitIndex));;
    rmtree_unless_keeptemp a;;
    sys_exit 1
  else
    emit (ParseHits (maxdist a));;
    let '(paired, unpaired) := iterateGetPairs (stableReps a) (maxdist a) hitIndex in
    emit (IterateGetPairs_ev (stableReps a) paired unpaired);;
    emit (WriteTIRs (prefix a) (maxeval a) (tir_names (prefix a) (maxeval a) hitIndex));;
    let pairedEles := fetchElements hitIndex paired in
    emit (WriteElements (prefix a) (element_names (prefix a) pairedEles));;
    write_gff a hitIndex pairedEles unpaired;;
    rmtree_unless_keeptemp a.

(** A hit of model [TIR1]. *)
Definition hr (c : string) (s e : nat) (st : Strand) (ev : nat) : HitRecord :=
  mkHitRecord "TIR1" c s e st ev.

(** The warning lines printed by [check_tools]. *)
Definition warnings (a : Args) (env : Env) : list Event :=
  match missing_tools a env with
  | [] => []
  | missing => [Print (warning_msg missing);
                Print "You may need to install them to use all features."]
  end.

(** Events of line 97, when alignments are given. *)
Definition conv_log (a : Args) : list Event := if alnGiven a then [ConvertAlign] else [].

Definition rm_log (a : Args) : list Event := if keeptemp a then [] else [RmTree].

Definition set_maxeval (a : Args) (me : nat) : Args :=
  mkArgs (hmmpress a) (nhmmer a) (hmmbuild a) (bowtie2 a) (bt2build a) (samtools a)
    (bedtools a) (useBowtie2 a) (alnGiven a) (stableReps a) (prefix a) (nopairing a)
    (gffOut a) (reportTIR a) (keeptemp a) me (maxdist a).

(** An event with the [maxeval]-dependent part of [writeTIRs] blanked out. *)
Definition erase_maxeval (e : Event) : Event :=
  match e with
  | WriteTIRs pfx _ _ => WriteTIRs pfx 0 []
  | e => e
  end.

(** Events of the pairing, element and GFF steps. *)
Definition is_pairing_event (e : Event) : bool :=
  match e with
  | ParseHits _ | IterateGetPairs_ev _ _ _ | WriteElements _ _ | FetchUnpaired
  | GffWrite _ _ _ => true
  | _ => false
  end.

(** Sample invocations: the [mainArgs] defaults with a prefix, and an
    environment where every tool is installed and nhmmer reported hits. *)
Definition sample_args : Args :=
  mkArgs "hmmpress" "nhmmer" "hmmbuild" "bowtie2" "bowtie2-build" "samtools" "bedtools"
    false false 0 (Some "P") false (Some "out.gff3") RAll false 1 (Some 200).

Definition sample_hits : list HitRecord :=
  [hr "chr1" 100 120 Plus 1; hr "chr1" 170 190 Minus 5; hr "chr1" 400 420 Plus 0].

Definition sample_env : Env :=
  mkEnv (fun _ => true) "/tmp/tirmite/hmmerResults" true sample_hits [].

Definition nopairing_args : Args :=
  mkArgs "hmmpress" "nhmmer" "hmmbuild" "bowtie2" "bowtie2-build" "samtools" "bedtools"
    false false 0 (Some "P") true None RAll false 1 None.

Definition no_hits_env : Env :=
  mkEnv (fun _ => true) "/tmp/tirmite/hmmerResults" false [] [].

(** An invocation with [--useBowtie2]. *)
Definition bowtie_args : Args :=
  mkArgs "hmmpress" "nhmmer" "hmmbuild" "bowtie2" "bowtie2-build" "samtools" "bedtools"
    true false 0 (Some "P") false (Some "out.gff3") RPaired false 1 None.

(** Kinds of events. *)
Definition is_write_tirs (e : Event) : bool :=
  match e with WriteTIRs _ _ _ => true | _ => false end.


(** Events that may follow [writeElements] in a pairing run (lines 141-154). *)
Definition is_gff_or_rm (e : Event) : bool :=
  match e with FetchUnpaired | GffWrite _ _ _ | RmTree => true | _ => false end.

(** The [prefix] argument handed to an output writer, if the event is one. *)
Definition event_prefix (e : Event) : option (option string) :=
  match e with
  | WriteTIRs pfx _ _ | WriteElements pfx _ | GffWrite _ pfx _ => Some pfx
  | _ => None
  end.

(** The same environment with every tool found by [shutil.which]. *)
Definition with_all_tools (env : Env) : Env :=
  mkEnv (fun _ => true) (result_dir env) (tab_files_exist env) (nhmmer_hits env)
    (mapped_hits env).



(* ------------------------------------------------------------------ *)
(** ** Proof-side notions: invariant, measure and big-step loop *)

(** The pairing state is a symmetric partner relation between compatible
    hits of the group. *)
Definition Inv (md : option nat) (g : list Hit) (p : Partner) : Prop :=
  forall a b, p a = Some b ->
    p b = Some a /\
    exists ha hb, find_hit g a = Some ha /\ find_hit g b = Some hb
                  /\ compatible md ha hb = true.

Definition count_unpaired (g : list Hit) (p : Partner) : nat :=
  List.length (filter (unpairedb p) g).

Definition measure (sr : nat) (g : list Hit) (st : GState) : nat :=
  count_unpaired g (partner st) * (sr + 2) + (S sr - idle st).

(** The loop as a big-step relation: it stops at the first state where
    [stop] holds and performs a round at every state where it does not. *)
Inductive LoopRuns (sr : nat) (md : option nat) (g : list Hit) : GState -> GState -> Prop :=
| lr_stop st : stop sr md g st = true -> LoopRuns sr md g st st
| lr_step st st' : stop sr md g st = false -> LoopRuns sr md g (step md g st) st' ->
                   LoopRuns sr md g st st'.

(* ------------------------------------------------------------------ *)
(** ** Scenarios of the specification *)

Example scenario_A :
  iterateGetPairs 0 (Some 200) (index_hits [hr "chr1" 100 120 Plus 1; hr "chr1" 170 190 Minus 1])
  = ([(0, 1)], []).
Proof. reflexivity. Qed.

Example scenario_B :
  iterateGetPairs 0 (Some 200) (index_hits [hr "chr1" 100 120 Plus 1; hr "chr1" 620 640 Minus 1])
  = ([], [0; 1]).
Proof. reflexivity. Qed.

Example scenario_C :
  iterateGetPairs 0 None
    (index_hits [hr "chr1" 100 120 Plus 1; hr "chr1" 170 190 Plus 1; hr "chr1" 300 320 Plus 1])
  = ([], [0; 1; 2]).
Proof. reflexivity. Qed.

Example scenario_D :
  iterateGetPairs 0 (Some 200)
    (index_hits [hr "chr1" 100 120 Plus 1; hr "chr1" 170 190 Minus 1; hr "chr1" 200 220 Minus 5])
  = ([(0, 1)], [2]).
Proof. reflexivity. Qed.

(* ------------------------------------------------------------------ *)
(** ** Basic facts about the engine *)

Lemma key_eqb_true a b : key_eqb a b = true <-> a = b.
Proof.
  destruct a as [a1 a2], b as [b1 b2]; unfold key_eqb; simpl.
  rewrite andb_true_iff, !String.eqb_eq; split.
  - intros [-> ->]; reflexivity.
  - intros H; inversion H; auto.
Qed.

Lemma find_hit_Some g i h : find_hit g i = Some h -> In h g /\ hid h = i.
Proof.
  unfold find_hit; intros H; apply find_some in H as [Hin Heq].
  apply Nat.eqb_eq in Heq; auto.
Qed.

Lemma find_hit_In g c :
  NoDup (map hid g) -> In c g -> find_hit g (hid c) = Some c.
Proof.
  induction g as [|h g IH]; simpl; [tauto|].
  intros Hnd Hin; inversion Hnd as [|x l Hnot Hnd']; subst.
  unfold find_hit; simpl.
  destruct Hin as [<- | Hin].
  - rewrite Nat.eqb_refl; reflexivity.
  - destruct (Nat.eqb_spec (hid h) (hid c)) as [E|E].
    + exfalso; apply Hnot; rewrite E; apply in_map; exact Hin.
    + apply IH; assumption.
Qed.

Lemma best_in_In h l c : best_in h l = Some c -> In c l.
Proof.
  induction l as [|x l IH]; cbn [best_in]; [discriminate|].
  intros H; destruct (best_in h l) as [b|].
  - destruct (key_leb (rank_key h x) (rank_key h b)); inversion H; subst;
      [left; reflexivity | right; apply IH; reflexivity].
  - inversion H; left; reflexivity.
Qed.

Lemma best_in_None h l : best_in h l = None -> l = [].
Proof.
  destruct l as [|x l]; cbn [best_in]; [auto|].
  destruct (best_in h l) as [b|]; [destruct (key_leb (rank_key h x) (rank_key h b))|];
    discriminate.
Qed.

Lemma remaining_In md g p h c :
  In c (remaining md g p h) <->
  In c g /\ compatible md h c = true /\ p (hid c) = None.
Proof.
  unfold remaining, candidates, unpairedb.
  rewrite filter_In, filter_In.
  destruct (p (hid c)); intuition congruence.
Qed.

Lemma best_id_spec md g p i j :
  best_id md g p i = Some j ->
  exists h c, find_hit g i = Some h /\ In c g /\ hid c = j
              /\ compatible md h c = true /\ p j = None.
Proof.
  unfold best_id.
  destruct (find_hit g i) as [h|] eqn:Ef; [|discriminate].
  destruct (best_in h (remaining md g p h)) as [c|] eqn:Eb; simpl; [|discriminate].
  intros H; inversion H; subst.
  apply best_in_In, remaining_In in Eb as (Hin & Hc & Hp).
  exists h, c; auto.
Qed.

Lemma mutual_spec md g p i j :
  mutual md g p i = Some j ->
  best_id md g p i = Some j /\ best_id md g p j = Some i.
Proof.
  unfold mutual.
  destruct (best_id md g p i) as [j'|]; [|discriminate].
  destruct (best_id md g p j') as [i'|] eqn:E2; [|discriminate].
  destruct (Nat.eqb_spec i' i); [|discriminate].
  intros H; inversion H; subst; auto.
Qed.

Lemma mutual_of_best md g p i j :
  best_id md g p i = Some j -> best_id md g p j = Some i ->
  mutual md g p j = Some i.
Proof.
  intros H1 H2; unfold mutual; rewrite H2, H1, Nat.eqb_refl; reflexivity.
Qed.

Lemma Inv_init md g : Inv md g (fun _ => None).
Proof. intros a b H; discriminate. Qed.

Lemma round_extends md g p i j : p i = Some j -> round md g p i = Some j.
Proof. unfold round; intros ->; reflexivity. Qed.

Lemma round_Inv md g p :
  NoDup (map hid g) -> Inv md g p -> Inv md g (round md g p).
Proof.
  intros Hnd HI a b H; unfold round in H.
  destruct (p a) as [b'|] eqn:Ea.
  - inversion H; subst b'.
    destruct (HI a b Ea) as [Hb Hex]; split; [apply round_extends; exact Hb | exact Hex].
  - apply mutual_spec in H as [H1 H2].
    pose proof H1 as H1'.
    apply best_id_spec in H1' as (ha & c & Hfa & Hc & <- & Hcomp & Hpb).
    split.
    + unfold round; rewrite Hpb; apply mutual_of_best; assumption.
    + exists ha, c; repeat split; auto. apply find_hit_In; assumption.
Qed.

Lemma step_partner md g st : partner (step md g st) = round md g (partner st).
Proof. unfold step; destruct (productive _ _ _); reflexivity. Qed.

Lemma pair_loop_Inv sr md g fuel st :
  NoDup (map hid g) -> Inv md g (partner st) ->
  Inv md g (partner (pair_loop sr md g fuel st)).
Proof.
  revert st; induction fuel as [|f IH]; intros st Hnd HI; simpl; [exact HI|].
  destruct (stop sr md g st); [exact HI|].
  apply IH; [exact Hnd|]. rewrite step_partner; apply round_Inv; assumption.
Qed.

Lemma run_group_Inv sr md g :
  NoDup (map hid g) -> Inv md g (partner (run_group sr md g)).
Proof. intros Hnd; apply pair_loop_Inv; [exact Hnd | apply Inv_init]. Qed.

(* ------------------------------------------------------------------ *)
(** ** Counting lemmas *)

Lemma cnt_cons x l i :
  count_occ Nat.eq_dec (x :: l) i = (if x =? i then 1 else 0) + count_occ Nat.eq_dec l i.
Proof.
  simpl; destruct (Nat.eq_dec x i) as [E|E];
    [subst; rewrite Nat.eqb_refl | apply Nat.eqb_neq in E; rewrite E]; reflexivity.
Qed.

Lemma list_sum_cons x l : list_sum (x :: l) = x + list_sum l.
Proof. reflexivity. Qed.

Lemma list_sum_map_ext {A} (f g : A -> nat) l :
  (forall x, In x l -> f x = g x) -> list_sum (map f l) = list_sum (map g l).
Proof.
  induction l as [|x l IH]; simpl; intros H; [reflexivity|].
  rewrite H, IH; auto.
Qed.

Lemma list_sum_map_add {A} (f g : A -> nat) l :
  list_sum (map (fun x => f x + g x) l) = list_sum (map f l) + list_sum (map g l).
Proof. induction l as [|x l IH]; simpl; [reflexivity|]. rewrite IH; lia. Qed.

Lemma list_sum_map_zero {A} (l : list A) : list_sum (map (fun _ => 0) l) = 0.
Proof. induction l; simpl; auto. Qed.

Lemma cnt_app l1 l2 i :
  count_occ Nat.eq_dec (l1 ++ l2) i = count_occ Nat.eq_dec l1 i + count_occ Nat.eq_dec l2 i.
Proof. apply count_occ_app. Qed.

Lemma cnt_flat_map {A} (f : A -> list nat) l i :
  count_occ Nat.eq_dec (flat_map f l) i
  = list_sum (map (fun x => count_occ Nat.eq_dec (f x) i) l).
Proof. induction l as [|x l IH]; simpl; [reflexivity|]. rewrite cnt_app, IH; reflexivity. Qed.

Lemma cnt_concat (L : list (list nat)) i :
  count_occ Nat.eq_dec (List.concat L) i = list_sum (map (fun l => count_occ Nat.eq_dec l i) L).
Proof. induction L as [|l L IH]; simpl; [reflexivity|]. rewrite cnt_app, IH; reflexivity. Qed.

Lemma flatten_concat (L : list (list (nat * nat))) :
  flatten_pairs (List.concat L) = List.concat (map flatten_pairs L).
Proof.
  induction L as [|l L IH]; simpl; [reflexivity|].
  unfold flatten_pairs in *; rewrite flat_map_app, IH; reflexivity.
Qed.

Lemma sum_if_hid c l i :
  list_sum (map (fun h => if hid h =? i then c else 0) l)
  = c * count_occ Nat.eq_dec (map hid l) i.
Proof.
  induction l as [|h l IH]; simpl map; [simpl; lia|].
  rewrite cnt_cons; simpl list_sum; rewrite IH.
  destruct (hid h =? i); lia.
Qed.

Lemma cnt_map_hid_filter f l i :
  count_occ Nat.eq_dec (map hid (filter f l)) i
  = list_sum (map (fun h => if f h && (hid h =? i) then 1 else 0) l).
Proof.
  induction l as [|h l IH]; [reflexivity|].
  cbn [filter map]; rewrite list_sum_cons; destruct (f h); simpl andb.
  - cbn [map]; rewrite cnt_cons, IH; reflexivity.
  - rewrite IH; reflexivity.
Qed.

Lemma NoDup_map_hid_filter f l : NoDup (map hid l) -> NoDup (map hid (filter f l)).
Proof.
  induction l as [|h l IH]; simpl; intros Hnd; [constructor|].
  inversion Hnd as [|x l' Hnot Hnd']; subst.
  destruct (f h); simpl; [constructor|]; auto.
  intros Hin; apply Hnot; apply in_map_iff in Hin as (y & Hy & Hin).
  apply filter_In in Hin as [Hin _]; rewrite <- Hy; apply in_map; exact Hin.
Qed.

Lemma cnt_NoDup_In l i : NoDup l -> In i l -> count_occ Nat.eq_dec l i = 1.
Proof. intros Hnd Hin; apply (proj1 (NoDup_count_occ' Nat.eq_dec l) Hnd i Hin). Qed.

Lemma compatible_neq md a b : compatible md a b = true -> hid a <> hid b.
Proof.
  unfold compatible; intros H E.
  rewrite E, Nat.eqb_refl in H; simpl in H; rewrite andb_false_r in H; discriminate.
Qed.

Lemma flatten_pairs_of g p :
  flatten_pairs (pairs_of g p)
  = flat_map (fun h => match p (hid h) with
                       | Some j => if hid h <? j then [hid h; j] else []
                       | None => []
                       end) g.
Proof.
  induction g as [|h g IH]; [reflexivity|].
  unfold pairs_of, flatten_pairs in *; simpl; rewrite flat_map_app, IH.
  destruct (p (hid h)) as [j|]; [destruct (hid h <? j)|]; reflexivity.
Qed.

(** Per group, every hit id is counted once: among the pairs or among the
    unpaired ids. *)
Lemma group_partition md g p i :
  NoDup (map hid g) -> Inv md g p ->
  count_occ Nat.eq_dec (flatten_pairs (pairs_of g p)) i
  + count_occ Nat.eq_dec (unpaired_of g p) i
  = count_occ Nat.eq_dec (map hid g) i.
Proof.
  intros Hnd HI.
  unfold unpaired_of; rewrite flatten_pairs_of, cnt_flat_map, cnt_map_hid_filter.
  destruct (p i) as [j|] eqn:Ei.
  - destruct (HI i j Ei) as [Hj (hi & hj & Hfi & Hfj & Hc)].
    apply find_hit_Some in Hfi as [Hini Ehi]; apply find_hit_Some in Hfj as [Hinj Ehj].
    pose proof (compatible_neq _ _ _ Hc) as Hne; rewrite Ehi, Ehj in Hne.
    rewrite (list_sum_map_ext (fun h => if unpairedb p h && (hid h =? i) then 1 else 0)
                              (fun _ => 0)), list_sum_map_zero, Nat.add_0_r.
    2:{ intros h _; unfold unpairedb.
        destruct (Nat.eqb_spec (hid h) i) as [E|E];
          [rewrite E, Ei | destruct (p (hid h))]; reflexivity. }
    rewrite (list_sum_map_ext _
               (fun h => (if hid h =? i then (if i <? j then 1 else 0) else 0)
                         + (if hid h =? j then (if j <? i then 1 else 0) else 0))).
    + rewrite list_sum_map_add, !sum_if_hid.
      assert (Ci : count_occ Nat.eq_dec (map hid g) i = 1)
        by (apply cnt_NoDup_In; [exact Hnd | rewrite <- Ehi; apply in_map; exact Hini]).
      assert (Cj : count_occ Nat.eq_dec (map hid g) j = 1)
        by (apply cnt_NoDup_In; [exact Hnd | rewrite <- Ehj; apply in_map; exact Hinj]).
      rewrite Ci, Cj.
      destruct (Nat.ltb_spec i j), (Nat.ltb_spec j i); lia.
    + intros h _.
      destruct (p (hid h)) as [j'|] eqn:Eh.
      * pose proof (proj1 (HI _ _ Eh)) as Hs.
        assert (F1 : hid h = i -> j' = j) by (intros E; rewrite E in Eh; congruence).
        assert (F2 : j' = i -> hid h = j) by (intros E; rewrite E in Hs; congruence).
        assert (F3 : hid h = j -> j' = i) by (intros E; rewrite E in Eh; congruence).
        destruct (Nat.ltb_spec (hid h) j'); simpl count_occ;
          repeat match goal with
                 | |- context [Nat.eq_dec ?a ?b] => destruct (Nat.eq_dec a b)
                 end;
          destruct (Nat.eqb_spec (hid h) i), (Nat.eqb_spec (hid h) j),
                   (Nat.ltb_spec i j), (Nat.ltb_spec j i); lia.
      * assert (F4 : hid h <> i) by (intros E; rewrite E in Eh; congruence).
        assert (F5 : hid h <> j) by (intros E; rewrite E in Eh; congruence).
        simpl count_occ.
        destruct (Nat.eqb_spec (hid h) i), (Nat.eqb_spec (hid h) j); lia.
  - rewrite (list_sum_map_ext _ (fun _ => 0)), list_sum_map_zero, Nat.add_0_l.
    2:{ intros h _.
        destruct (p (hid h)) as [j'|] eqn:Eh; [|reflexivity].
        pose proof (proj1 (HI _ _ Eh)) as Hs.
        destruct (hid h <? j'); simpl count_occ; [|reflexivity].
        destruct (Nat.eq_dec (hid h) i) as [E|E]; [rewrite E in Eh; congruence|].
        destruct (Nat.eq_dec j' i) as [E'|E']; [rewrite E' in Hs; congruence|].
        reflexivity. }
    rewrite <- (Nat.mul_1_l (count_occ _ _ _)), <- sum_if_hid.
    apply list_sum_map_ext; intros h _; unfold unpairedb.
    destruct (Nat.eqb_spec (hid h) i) as [E|E];
      [rewrite E, Ei | destruct (p (hid h))]; reflexivity.
Qed.

Lemma sum_if_key c keys x :
  list_sum (map (fun k => if key_eqb x k then c else 0) keys)
  = c * count_occ key_eq_dec keys x.
Proof.
  induction keys as [|k keys IH]; [simpl; lia|].
  cbn [map]; rewrite list_sum_cons, IH; simpl count_occ.
  destruct (key_eq_dec k x) as [E|E].
  - rewrite E; replace (key_eqb x x) with true by (symmetry; apply key_eqb_true; reflexivity); lia.
  - destruct (key_eqb x k) eqn:Ex; [apply key_eqb_true in Ex; congruence | lia].
Qed.

Lemma sum_groups keys idx i :
  NoDup keys -> (forall h, In h idx -> In (hkey h) keys) ->
  list_sum (map (fun k => count_occ Nat.eq_dec (map hid (group_of k idx)) i) keys)
  = count_occ Nat.eq_dec (map hid idx) i.
Proof.
  intros Hnd; induction idx as [|h t IH]; intros Hk.
  - rewrite (list_sum_map_ext _ (fun _ => 0)) by (intros; reflexivity).
    apply list_sum_map_zero.
  - rewrite (list_sum_map_ext _
      (fun k => (if key_eqb (hkey h) k then (if hid h =? i then 1 else 0) else 0)
                + count_occ Nat.eq_dec (map hid (group_of k t)) i)).
    + rewrite list_sum_map_add, sum_if_key, IH by (intros; apply Hk; right; assumption).
      cbn [map]; rewrite cnt_cons.
      rewrite (proj1 (NoDup_count_occ' key_eq_dec keys) Hnd (hkey h) (Hk h (or_introl eq_refl))).
      lia.
    + intros k _; unfold group_of; cbn [filter].
      destruct (key_eqb (hkey h) k); cbn [map]; [rewrite cnt_cons|]; reflexivity.
Qed.

Lemma map_hid_index l : map hid (index_hits l) = seq 0 (List.length l).
Proof.
  unfold index_hits; generalize 0; induction l as [|r l IH]; intros s; [reflexivity|].
  simpl; f_equal; apply IH.
Qed.

Lemma cnt_seq n i : count_occ Nat.eq_dec (seq 0 n) i = if i <? n then 1 else 0.
Proof.
  destruct (Nat.ltb_spec i n).
  - apply cnt_NoDup_In; [apply seq_NoDup | apply in_seq; lia].
  - apply count_occ_not_In; rewrite in_seq; lia.
Qed.

Lemma NoDup_index l : NoDup (map hid (index_hits l)).
Proof. rewrite map_hid_index; apply seq_NoDup. Qed.

Lemma NoDup_group k idx : NoDup (map hid idx) -> NoDup (map hid (group_of k idx)).
Proof. apply NoDup_map_hid_filter. Qed.

Lemma In_group_keys idx h : In h idx -> In (hkey h) (group_keys idx).
Proof. intros Hin; unfold group_keys; rewrite nodup_In; apply in_map; exact Hin. Qed.

(** [iterateGetPairs] over an arbitrary index with distinct ids counts each
    id once. *)
Lemma iterateGetPairs_counts sr md idx i :
  NoDup (map hid idx) ->
  count_occ Nat.eq_dec (flatten_pairs (fst (iterateGetPairs sr md idx))) i
  + count_occ Nat.eq_dec (snd (iterateGetPairs sr md idx)) i
  = count_occ Nat.eq_dec (map hid idx) i.
Proof.
  intros Hnd; unfold iterateGetPairs; cbn [fst snd].
  rewrite flatten_concat, !cnt_concat, !map_map, <- list_sum_map_add.
  rewrite <- (sum_groups (group_keys idx) idx i);
    [| apply NoDup_nodup | intros h; apply In_group_keys].
  apply list_sum_map_ext; intros k _; unfold group_result; cbn [fst snd].
  apply (group_partition md); [apply NoDup_group; exact Hnd|].
  apply run_group_Inv, NoDup_group; exact Hnd.
Qed.

(* ------------------------------------------------------------------ *)
(** ** Termination of the pairing loop *)

Lemma filter_length_le {A} (f f' : A -> bool) l :
  (forall x, In x l -> f' x = true -> f x = true) ->
  List.length (filter f' l) <= List.length (filter f l).
Proof.
  induction l as [|x l IH]; simpl; intros H; [lia|].
  specialize (IH (fun y Hy => H y (or_intror Hy))).
  destruct (f' x) eqn:E1; [rewrite (H x (or_introl eq_refl) E1); simpl; lia|].
  destruct (f x); simpl; lia.
Qed.

Lemma filter_length_lt {A} (f f' : A -> bool) l x :
  (forall y, In y l -> f' y = true -> f y = true) ->
  In x l -> f x = true -> f' x = false ->
  List.length (filter f' l) < List.length (filter f l).
Proof.
  induction l as [|y l IH]; simpl; intros H Hin Hf Hf'; [contradiction|].
  pose proof (filter_length_le f f' l (fun z Hz => H z (or_intror Hz))) as Hle.
  destruct Hin as [<- | Hin].
  - rewrite Hf, Hf'; simpl; lia.
  - specialize (IH (fun z Hz => H z (or_intror Hz)) Hin Hf Hf').
    destruct (f' y) eqn:E1; [rewrite (H y (or_introl eq_refl) E1); simpl; lia|].
    destruct (f y); simpl; lia.
Qed.

Lemma round_unpaired md g p h : unpairedb (round md g p) h = true -> unpairedb p h = true.
Proof. unfold unpairedb, round; destruct (p (hid h)); [discriminate | auto]. Qed.

Lemma step_measure sr md g st :
  stop sr md g st = false -> measure sr g (step md g st) < measure sr g st.
Proof.
  unfold stop; intros Hs; apply orb_false_iff in Hs as [_ Hidle].
  apply Nat.leb_gt in Hidle.
  assert (Hle : count_unpaired g (round md g (partner st)) <= count_unpaired g (partner st))
    by (apply filter_length_le; intros x _; apply round_unpaired).
  unfold measure, step; destruct (productive md g (partner st)) eqn:Ep; cbn [partner idle].
  - apply existsb_exists in Ep as (h & Hin & Hh); apply andb_true_iff in Hh as [Hu Hm].
    destruct (mutual md g (partner st) (hid h)) as [j|] eqn:Ej; [|discriminate].
    assert (Hlt : count_unpaired g (round md g (partner st)) < count_unpaired g (partner st)).
    { apply (filter_length_lt _ _ _ h); [intros x _; apply round_unpaired | exact Hin | exact Hu |].
      unfold unpairedb, round; unfold unpairedb in Hu.
      destruct (partner st (hid h)); [discriminate|]; rewrite Ej; reflexivity. }
    nia.
  - nia.
Qed.

Lemma pair_loop_runs sr md g fuel st :
  measure sr g st < fuel -> LoopRuns sr md g st (pair_loop sr md g fuel st).
Proof.
  revert st; induction fuel as [|f IH]; intros st Hm; [lia|].
  cbn [pair_loop]; destruct (stop sr md g st) eqn:Es.
  - apply lr_stop; exact Es.
  - apply lr_step; [exact Es|]. apply IH.
    pose proof (step_measure sr md g st Es); lia.
Qed.

Lemma LoopRuns_final sr md g st st' :
  LoopRuns sr md g st st' -> idle st <= S sr ->
  stop sr md g st' = true /\ idle st' <= S sr.
Proof.
  induction 1 as [st Hs | st st' Hs _ IH]; intros Hi; [auto|].
  apply IH; unfold stop in Hs; apply orb_false_iff in Hs as [_ Hidle].
  apply Nat.leb_gt in Hidle; unfold step.
  destruct (productive md g (partner st)); cbn [idle]; lia.
Qed.

Lemma run_group_runs sr md g : LoopRuns sr md g init_state (run_group sr md g).
Proof.
  apply pair_loop_runs; unfold measure, group_fuel, count_unpaired, init_state.
  cbn [partner idle].
  replace (filter (unpairedb (fun _ => None)) g) with g by (symmetry; apply filter_true).
  lia.
Qed.

Lemma has_open_false md g p :
  has_open md g p = false <->
  (forall h, In h g -> p (hid h) = None -> remaining md g p h = []).
Proof.
  unfold has_open; split.
  - intros H h Hin Hp.
    destruct (remaining md g p h) as [|c r] eqn:Er; [reflexivity|].
    exfalso; assert (existsb (fun h0 => unpairedb p h0 &&
                       match remaining md g p h0 with [] => false | _ => true end) g = true)
      as Ht by (apply existsb_exists; exists h; split; [exact Hin|];
                unfold unpairedb; rewrite Hp, Er; reflexivity).
    congruence.
  - intros H; apply not_true_iff_false; intros Ht.
    apply existsb_exists in Ht as (h & Hin & Hh); apply andb_true_iff in Hh as [Hu Hr].
    unfold unpairedb in Hu; destruct (p (hid h)) eqn:Ep; [discriminate|].
    rewrite (H h Hin Ep) in Hr; discriminate.
Qed.

Lemma unpaired_of_In g p i :
  In i (unpaired_of g p) <-> exists h, In h g /\ hid h = i /\ p i = None.
Proof.
  unfold unpaired_of; rewrite in_map_iff; split.
  - intros (h & <- & Hin); apply filter_In in Hin as [Hin Hu].
    exists h; unfold unpairedb in Hu; destruct (p (hid h)); [discriminate|]; auto.
  - intros (h & Hin & <- & Hp); exists h; split; [reflexivity|].
    apply filter_In; unfold unpairedb; rewrite Hp; auto.
Qed.

(* ------------------------------------------------------------------ *)
(** ** Committed pairs are candidate pairs *)

Lemma pairs_of_In g p a b :
  In (a, b) (pairs_of g p) -> exists h, In h g /\ hid h = a /\ p a = Some b.
Proof.
  unfold pairs_of; rewrite in_flat_map; intros (h & Hin & Hab).
  destruct (p (hid h)) as [j|] eqn:Eh; [|contradiction].
  destruct (hid h <? j); [|contradiction].
  destruct Hab as [Hab|[]]; inversion Hab; subst; eauto.
Qed.

Lemma iterateGetPairs_pair_compatible sr md idx a b :
  NoDup (map hid idx) ->
  In (a, b) (fst (iterateGetPairs sr md idx)) ->
  exists ha hb, In ha idx /\ In hb idx /\ hid ha = a /\ hid hb = b
                /\ compatible md ha hb = true.
Proof.
  intros Hnd; unfold iterateGetPairs; cbn [fst].
  rewrite in_concat; intros (l & Hl & Hab).
  rewrite map_map, in_map_iff in Hl; destruct Hl as (k & <- & _).
  unfold group_result in Hab; cbn [fst] in Hab.
  apply pairs_of_In in Hab as (h & _ & _ & Hp).
  destruct (run_group_Inv sr md (group_of k idx) (NoDup_group k idx Hnd) a b Hp)
    as [_ (ha & hb & Hfa & Hfb & Hc)].
  apply find_hit_Some in Hfa as [Ha Ea]; apply find_hit_Some in Hfb as [Hb Eb].
  unfold group_of in Ha, Hb; apply filter_In in Ha as [Ha _]; apply filter_In in Hb as [Hb _].
  exists ha, hb; auto.
Qed.

(* ------------------------------------------------------------------ *)
(** ** The ranking order *)

Lemma key_leb_true a1 b1 c1 a2 b2 c2 :
  key_leb (a1, b1, c1) (a2, b2, c2) = true <->
  a1 < a2 \/ (a1 = a2 /\ (b1 < b2 \/ (b1 = b2 /\ c1 <= c2))).
Proof.
  unfold key_leb.
  rewrite orb_true_iff, andb_true_iff, orb_true_iff, andb_true_iff,
          Nat.ltb_lt, Nat.eqb_eq, Nat.ltb_lt, Nat.eqb_eq, Nat.leb_le.
  tauto.
Qed.

Lemma key_leb_antisym x y : key_leb x y = true -> key_leb y x = true -> x = y.
Proof.
  destruct x as [[a1 b1] c1], y as [[a2 b2] c2]; rewrite !key_leb_true; intros H1 H2.
  assert (a1 = a2 /\ b1 = b2 /\ c1 = c2) as (-> & -> & ->) by lia; reflexivity.
Qed.

Lemma key_leb_trans x y z : key_leb x y = true -> key_leb y z = true -> key_leb x z = true.
Proof.
  destruct x as [[a1 b1] c1], y as [[a2 b2] c2], z as [[a3 b3] c3].
  rewrite !key_leb_true; lia.
Qed.

Lemma key_leb_total x y : key_leb x y = false -> key_leb y x = true.
Proof.
  destruct x as [[a1 b1] c1], y as [[a2 b2] c2]; intros H.
  apply key_leb_true; apply not_true_iff_false in H; rewrite key_leb_true in H; lia.
Qed.

Lemma key_leb_refl x : key_leb x x = true.
Proof. destruct x as [[a b] c]; apply key_leb_true; lia. Qed.

Lemma best_in_min h l c :
  best_in h l = Some c ->
  forall c', In c' l -> key_leb (rank_key h c) (rank_key h c') = true.
Proof.
  revert c; induction l as [|x l IH]; intros c; cbn [best_in]; [discriminate|].
  destruct (best_in h l) as [b|] eqn:Eb.
  - destruct (key_leb (rank_key h x) (rank_key h b)) eqn:Ek; intros H; inversion H; subst;
      intros c' [<- | Hin].
    + apply key_leb_refl.
    + eapply key_leb_trans; [exact Ek | apply IH; auto].
    + apply key_leb_total; exact Ek.
    + apply IH; auto.
  - intros H; inversion H; subst; intros c' [<- | Hin]; [apply key_leb_refl|].
    apply best_in_None in Eb; subst; contradiction.
Qed.

(* ------------------------------------------------------------------ *)
(** ** Every run of the pairing rules ends in the same state *)

Lemma remaining_ext md g p q h :
  (forall i, p i = q i) -> remaining md g p h = remaining md g q h.
Proof.
  intros Hpq; unfold remaining; apply filter_ext; intros c; unfold unpairedb; rewrite Hpq; reflexivity.
Qed.

Lemma BestChoice_ext md g p q i j :
  (forall x, p x = q x) -> BestChoice md g p i j -> BestChoice md g q i j.
Proof.
  intros Hpq (h & c & Hf & [Hin Hmin] & Hc); exists h, c; split; [exact Hf|]; split; [|exact Hc].
  unfold IsBest; rewrite <- !(remaining_ext md g p q h Hpq); split; assumption.
Qed.

Lemma BestChoice_fun md g p i j1 j2 :
  BestChoice md g p i j1 -> BestChoice md g p i j2 -> j1 = j2.
Proof.
  intros (h1 & c1 & Hf1 & [Hin1 Hmin1] & <-) (h2 & c2 & Hf2 & [Hin2 Hmin2] & <-).
  rewrite Hf1 in Hf2; inversion Hf2; subst h2.
  pose proof (key_leb_antisym _ _ (Hmin1 c2 Hin2) (Hmin2 c1 Hin1)) as E.
  unfold rank_key in E; inversion E; reflexivity.
Qed.

Lemma Chooser_agree md g p q b1 b2 :
  (forall x, p x = q x) -> Chooser md g p b1 -> Chooser md g q b2 ->
  forall i, b1 i = b2 i.
Proof.
  intros Hpq H1 H2 i; destruct (H1 i) as [S1 N1], (H2 i) as [S2 N2].
  assert (Hqp : forall x, q x = p x) by (intros; symmetry; apply Hpq).
  destruct (b1 i) as [j1|] eqn:E1, (b2 i) as [j2|] eqn:E2.
  - f_equal; apply (BestChoice_fun md g q i);
      [apply (BestChoice_ext md g p); [exact Hpq | apply S1; reflexivity] | apply S2; reflexivity].
  - exfalso; apply (N2 eq_refl j1), (BestChoice_ext md g p); [exact Hpq | apply S1; reflexivity].
  - exfalso; apply (N1 eq_refl j2), (BestChoice_ext md g q); [exact Hqp | apply S2; reflexivity].
  - reflexivity.
Qed.

Lemma RoundRel_det md g p q p1 p2 :
  (forall x, p x = q x) -> RoundRel md g p p1 -> RoundRel md g q p2 ->
  forall i, p1 i = p2 i.
Proof.
  intros Hpq (b1 & C1 & E1) (b2 & C2 & E2) i.
  pose proof (Chooser_agree md g p q b1 b2 Hpq C1 C2) as Hb.
  rewrite E1, E2, Hpq; destruct (q i); [reflexivity|].
  rewrite (Hb i); destruct (b2 i) as [j|]; [rewrite (Hb j)|]; reflexivity.
Qed.

Lemma Productive_ext g p q p' q' :
  (forall x, p x = q x) -> (forall x, p' x = q' x) ->
  Productive g p p' -> Productive g q q'.
Proof.
  intros H H' (h & Hin & Hp & Hp'); exists h; rewrite <- H, <- H'; auto.
Qed.

Lemma StopP_ext sr md g s1 s2 : same_state s1 s2 -> StopP sr md g s1 -> StopP sr md g s2.
Proof.
  intros [Hp Hi] [H | H]; [left | right; lia].
  intros h Hin Hn; rewrite <- (remaining_ext md g (partner s1)) by exact Hp.
  apply H; [exact Hin | rewrite Hp; exact Hn].
Qed.

Lemma same_state_sym s1 s2 : same_state s1 s2 -> same_state s2 s1.
Proof. intros [Hp Hi]; split; [intros; symmetry; apply Hp | lia]. Qed.

Lemma StepRel_det md g s1 s2 t1 t2 :
  same_state s1 s2 -> StepRel md g s1 t1 -> StepRel md g s2 t2 -> same_state t1 t2.
Proof.
  intros [Hp Hi] [R1 I1] [R2 I2].
  pose proof (RoundRel_det md g _ _ _ _ Hp R1 R2) as Ht.
  assert (Hp' : forall x, partner s2 x = partner s1 x) by (intros; symmetry; apply Hp).
  assert (Ht' : forall x, partner t2 x = partner t1 x) by (intros; symmetry; apply Ht).
  split; [exact Ht|].
  destruct I1 as [[P1 Z1] | [P1 Z1]], I2 as [[P2 Z2] | [P2 Z2]]; try lia.
  - exfalso; apply P2, (Productive_ext g (partner s1) _ (partner t1)); assumption.
  - exfalso; apply P1, (Productive_ext g (partner s2) _ (partner t2)); assumption.
Qed.

Lemma GroupRuns_det sr md g s1 f1 :
  GroupRuns sr md g s1 f1 ->
  forall s2 f2, same_state s1 s2 -> GroupRuns sr md g s2 f2 -> same_state f1 f2.
Proof.
  induction 1 as [s1 Hs | s1 t1 f1 Hs Hst _ IH]; intros s2 f2 Heq H2;
    destruct H2 as [s2 Hs2 | s2 t2 f2 Hs2 Hst2 Hr2].
  - exact Heq.
  - exfalso; apply Hs2, (StopP_ext sr md g s1); assumption.
  - exfalso; apply Hs, (StopP_ext sr md g s2); [apply same_state_sym|]; assumption.
  - apply (IH t2); [apply (StepRel_det md g s1 s2); assumption | exact Hr2].
Qed.

Lemma pairs_of_ext g p q : (forall x, p x = q x) -> pairs_of g p = pairs_of g q.
Proof.
  intros H; unfold pairs_of; induction g as [|h g IH]; [reflexivity|].
  simpl; rewrite H, IH; reflexivity.
Qed.

Lemma unpaired_of_ext g p q : (forall x, p x = q x) -> unpaired_of g p = unpaired_of g q.
Proof.
  intros H; unfold unpaired_of; f_equal; apply filter_ext; intros h; unfold unpairedb; rewrite H; reflexivity.
Qed.

Lemma GroupOutcome_det sr md g o1 o2 :
  GroupOutcome sr md g o1 -> GroupOutcome sr md g o2 -> o1 = o2.
Proof.
  intros (f1 & R1 & ->) (f2 & R2 & ->).
  destruct (GroupRuns_det sr md g _ _ R1 init_state f2 (conj (fun _ => eq_refl) eq_refl) R2)
    as [Hp _].
  rewrite (pairs_of_ext g _ _ Hp), (unpaired_of_ext g _ _ Hp); reflexivity.
Qed.

Lemma Forall2_det {A B} (R : A -> B -> Prop) l m1 m2 :
  (forall x y1 y2, R x y1 -> R x y2 -> y1 = y2) ->
  Forall2 R l m1 -> Forall2 R l m2 -> m1 = m2.
Proof.
  intros Hdet H1; revert m2; induction H1 as [|x y1 l m1 Hr1 _ IH]; intros m2 H2;
    inversion H2 as [|x' y2 l' m2' Hr2 H2']; subst; [reflexivity|].
  f_equal; [eapply Hdet; eassumption | apply IH; assumption].
Qed.

Lemma EngineRel_det sr md idx o1 o2 :
  EngineRel sr md idx o1 -> EngineRel sr md idx o2 -> o1 = o2.
Proof.
  intros (os1 & F1 & ->) (os2 & F2 & ->).
  rewrite (Forall2_det _ _ _ _ (fun k => GroupOutcome_det sr md (group_of k idx)) F1 F2).
  reflexivity.
Qed.

(* ------------------------------------------------------------------ *)
(** ** The executable engine follows the pairing rules *)

Lemma best_id_Chooser md g p : Chooser md g p (best_id md g p).
Proof.
  intros i; split.
  - intros j; unfold best_id.
    destruct (find_hit g i) as [h|] eqn:Ef; [|discriminate].
    destruct (best_in h (remaining md g p h)) as [c|] eqn:Eb; [|discriminate].
    intros H; inversion H; subst.
    exists h, c; repeat split; auto.
    + apply (best_in_In h); exact Eb.
    + apply best_in_min; exact Eb.
  - intros Hn j (h & c & Hf & [Hin _] & _).
    unfold best_id in Hn; rewrite Hf in Hn.
    destruct (best_in h (remaining md g p h)) eqn:Eb; [discriminate|].
    apply best_in_None in Eb; rewrite Eb in Hin; contradiction.
Qed.

Lemma round_RoundRel md g p : RoundRel md g p (round md g p).
Proof.
  exists (best_id md g p); split; [apply best_id_Chooser|].
  intros i; reflexivity.
Qed.

Lemma productive_iff md g p :
  productive md g p = true <-> Productive g p (round md g p).
Proof.
  unfold productive, Productive; rewrite existsb_exists; split.
  - intros (h & Hin & Hh); apply andb_true_iff in Hh as [Hu Hm].
    exists h; unfold unpairedb in Hu; unfold round.
    destruct (p (hid h)); [discriminate|].
    destruct (mutual md g p (hid h)); [|discriminate].
    split; [exact Hin|]; split; [reflexivity | discriminate].
  - intros (h & Hin & Hp & Hr); exists h; split; [exact Hin|].
    unfold unpairedb; unfold round in Hr; rewrite Hp in *.
    destruct (mutual md g p (hid h)); [reflexivity | contradiction].
Qed.

Lemma step_StepRel md g st : StepRel md g st (step md g st).
Proof.
  split; [rewrite step_partner; apply round_RoundRel|].
  unfold step; destruct (productive md g (partner st)) eqn:Ep; cbn [partner idle].
  - left; split; [apply productive_iff; exact Ep | reflexivity].
  - right; split; [|reflexivity].
    intros H; apply productive_iff in H; congruence.
Qed.

Lemma stop_iff sr md g st : stop sr md g st = true <-> StopP sr md g st.
Proof.
  unfold stop, StopP; rewrite orb_true_iff, negb_true_iff, has_open_false, Nat.leb_le.
  reflexivity.
Qed.

Lemma LoopRuns_GroupRuns sr md g st st' :
  LoopRuns sr md g st st' -> GroupRuns sr md g st st'.
Proof.
  induction 1 as [st Hs | st st' Hs _ IH].
  - apply gr_stop, stop_iff; exact Hs.
  - apply (gr_step _ _ _ st (step md g st)); [| apply step_StepRel | exact IH].
    rewrite <- stop_iff; congruence.
Qed.

Lemma engine_sound sr md idx : EngineRel sr md idx (iterateGetPairs sr md idx).
Proof.
  exists (map (fun k => group_result sr md (group_of k idx)) (group_keys idx)); split.
  - induction (group_keys idx) as [|k ks IH]; constructor; [|exact IH].
    exists (run_group sr md (group_of k idx)); split; [|reflexivity].
    apply LoopRuns_GroupRuns, run_group_runs.
  - reflexivity.
Qed.

(* ------------------------------------------------------------------ *)
(** ** The driver, step by step *)

Lemma check_tools_eq a env : check_tools a env = (warnings a env, Ok tt).
Proof.
  unfold check_tools, warnings; destruct (missing_tools a env); reflexivity.
Qed.

Lemma write_gff_ok a idx eles unp : snd (write_gff a idx eles unp) = Ok tt.
Proof.
  unfold write_gff; destruct (gffOut a); [|reflexivity].
  destruct (reportTIR a); reflexivity.
Qed.

Lemma search_hits_eq a env :
  search_hits a env =
  if useBowtie2 a then ([RunCmds], Ok (mapped_hits env))
  else if tab_files_exist env then (app (conv_log a) [RunCmds], Ok (nhmmer_hits env))
  else (app (conv_log a)
           [RunCmds; Print ("No hits found in " ++ result_dir env ++ " . Quitting.")], Exit 1).
Proof.
  unfold search_hits, conv_log.
  destruct (useBowtie2 a); [reflexivity|].
  destruct (alnGiven a), (tab_files_exist env); reflexivity.
Qed.

Lemma main_eq a env :
  main a env =
  match search_hits a env with
  | (ls, Exit c) => (warnings a env ++ [DoChecks; ImportFasta] ++ ls, Exit c)
  | (ls, Ok hits) =>
      let idx := index_hits hits in
      if nopairing a then
        (warnings a env ++ [DoChecks; ImportFasta] ++ ls
         ++ WriteTIRs None (maxeval a) (tir_names None (maxeval a) idx) :: rm_log a, Exit 1)
      else
        let '(paired, unpaired) := iterateGetPairs (stableReps a) (maxdist a) idx in
        (warnings a env ++ [DoChecks; ImportFasta] ++ ls
         ++ [ParseHits (maxdist a); IterateGetPairs_ev (stableReps a) paired unpaired;
             WriteTIRs (prefix a) (maxeval a) (tir_names (prefix a) (maxeval a) idx);
             WriteElements (prefix a) (element_names (prefix a) (fetchElements idx paired))]
         ++ fst (write_gff a idx (fetchElements idx paired) unpaired) ++ rm_log a, Ok tt)
  end%list.
Proof.
  unfold main; rewrite check_tools_eq; cbn [bind emit].
  destruct (search_hits a env) as [ls [hits|c]]; cbn [bind];
    [|reflexivity].
  unfold rmtree_unless_keeptemp, rm_log, sys_exit.
  destruct (nopairing a); cbn [bind emit ret].
  - destruct (keeptemp a); cbn [bind ret emit]; rewrite ?app_nil_r; reflexivity.
  - destruct (iterateGetPairs (stableReps a) (maxdist a) (index_hits hits)) as [pd up].
    cbn [bind emit].
    pose proof (write_gff_ok a (index_hits hits) (fetchElements (index_hits hits) pd) up) as Hg.
    destruct (write_gff a (index_hits hits) (fetchElements (index_hits hits) pd) up)
      as [lg r]; cbn [snd] in Hg; subst r.
    destruct (keeptemp a); cbn [bind ret emit fst]; rewrite ?app_nil_r; reflexivity.
Qed.

Lemma warnings_no_pairing a env :
  forallb (fun e => negb (is_pairing_event e)) (warnings a env) = true.
Proof. unfold warnings; destruct (missing_tools a env); reflexivity. Qed.

Lemma warnings_no_rmtree a env : ~ In RmTree (warnings a env).
Proof. unfold warnings; destruct (missing_tools a env); simpl; intuition discriminate. Qed.

Lemma main_set_maxeval_parts a me env :
  search_hits (set_maxeval a me) env = search_hits a env
  /\ warnings (set_maxeval a me) env = warnings a env
  /\ (forall idx eles unp, write_gff (set_maxeval a me) idx eles unp = write_gff a idx eles unp)
  /\ rm_log (set_maxeval a me) = rm_log a.
Proof. destruct a; repeat split; reflexivity. Qed.

Lemma pair_element idx paired x y :
  NoDup (map hid idx) -> In (x, y) paired ->
  (exists hx hy, In hx idx /\ In hy idx /\ hid hx = x /\ hid hy = y) ->
  exists e, In e (fetchElements idx paired) /\ ele_left e = x /\ ele_right e = y.
Proof.
  intros Hnd Hin (hx & hy & Hx & Hy & <- & <-).
  unfold fetchElements.
  eexists; split; [apply in_flat_map; exists (hid hx, hid hy); split; [exact Hin|]|].
  - rewrite (find_hit_In idx hx Hnd Hx), (find_hit_In idx hy Hnd Hy); left; reflexivity.
  - split; reflexivity.
Qed.

(* ------------------------------------------------------------------ *)
(** * Claims *)

(** C1 (partition): after [iterateGetPairs] runs on the index of any hit
    list, every input hit id occurs exactly once among the committed pairs
    and the unpaired ids together: either once among the pairs (so in
    exactly one pair) and not unpaired, or unpaired and in no pair.  Ids not
    in the input occur nowhere. *)
Theorem iterateGetPairs_partition (sr : nat) (md : option nat) (recs : list HitRecord)
  (i : nat) :
  let '(paired, unpaired) := iterateGetPairs sr md (index_hits recs) in
  if i <? List.length recs
  then (count_occ Nat.eq_dec (flatten_pairs paired) i = 1
        /\ count_occ Nat.eq_dec unpaired i = 0)
       \/ (count_occ Nat.eq_dec (flatten_pairs paired) i = 0
           /\ count_occ Nat.eq_dec unpaired i = 1)
  else count_occ Nat.eq_dec (flatten_pairs paired) i = 0
       /\ count_occ Nat.eq_dec unpaired i = 0.
Proof.
  pose proof (iterateGetPairs_counts sr md (index_hits recs) i (NoDup_index recs)) as H.
  rewrite map_hid_index, cnt_seq in H.
  destruct (iterateGetPairs sr md (index_hits recs)) as [paired unpaired]; cbn [fst snd] in H.
  destruct (i <? List.length recs); lia.
Qed.

(** C2 (determinism): any two runs of the pairing rules on the same hits
    with the same [maxDist] and [stableReps] produce the same paired and
    unpaired sets, namely those of [iterateGetPairs], and the same element
    names for the same [prefix]. *)
Theorem pairing_deterministic (sr : nat) (md : option nat) (pfx : option string)
  (recs : list HitRecord) (o1 o2 : list (nat * nat) * list nat)
  (H1 : EngineRel sr md (index_hits recs) o1)
  (H2 : EngineRel sr md (index_hits recs) o2) :
  o1 = o2
  /\ o1 = iterateGetPairs sr md (index_hits recs)
  /\ element_names pfx (fetchElements (index_hits recs) (fst o1))
     = element_names pfx (fetchElements (index_hits recs) (fst o2)).
Proof.
  assert (E : o1 = o2) by (apply (EngineRel_det sr md (index_hits recs)); assumption).
  subst o2; split; [reflexivity|]; split; [|reflexivity].
  apply (EngineRel_det sr md (index_hits recs)); [exact H1 | apply engine_sound].
Qed.

Lemma pairing_deterministic_witness :
  EngineRel 0 (Some 200) (index_hits sample_hits) (iterateGetPairs 0 (Some 200) (index_hits sample_hits))
  /\ (iterateGetPairs 0 (Some 200) (index_hits sample_hits)
      = iterateGetPairs 0 (Some 200) (index_hits sample_hits)
      /\ iterateGetPairs 0 (Some 200) (index_hits sample_hits)
         = iterateGetPairs 0 (Some 200) (index_hits sample_hits)
      /\ element_names (Some "P")
           (fetchElements (index_hits sample_hits)
              (fst (iterateGetPairs 0 (Some 200) (index_hits sample_hits))))
         = element_names (Some "P")
             (fetchElements (index_hits sample_hits)
                (fst (iterateGetPairs 0 (Some 200) (index_hits sample_hits))))).
Proof.
  split; [apply engine_sound|].
  apply (pairing_deterministic 0 (Some 200) (Some "P") sample_hits); apply engine_sound.
Defined.

(** C3 (distance bound): both hits of every committed pair are hits of the
    index, and when [maxDist] is [Some d] the gap between their spans is at
    most [d]; when [maxDist] is unset the candidate test checks group,
    strand and identity only, with no distance term. *)
Theorem committed_pairs_within_maxdist (sr : nat) (md : option nat) (recs : list HitRecord) :
  (forall a b, In (a, b) (fst (iterateGetPairs sr md (index_hits recs))) ->
     exists ha hb, In ha (index_hits recs) /\ In hb (index_hits recs)
                   /\ hid ha = a /\ hid hb = b
                   /\ match md with Some d => gap ha hb <= d | None => True end)
  /\ (forall a b, compatible None a b
                  = key_eqb (hkey a) (hkey b)
                    && negb (strand_eqb (strand (hrec a)) (strand (hrec b)))
                    && negb (hid a =? hid b)).
Proof.
  split.
  - intros a b Hin.
    destruct (iterateGetPairs_pair_compatible sr md (index_hits recs) a b (NoDup_index recs) Hin)
      as (ha & hb & Ha & Hb & Ea & Eb & Hc).
    exists ha, hb; repeat split; auto.
    destruct md as [d|]; [|exact I].
    unfold compatible in Hc; rewrite !andb_true_iff in Hc.
    destruct Hc as [_ Hd]; apply Nat.leb_le; exact Hd.
  - intros a b; unfold compatible; rewrite andb_true_r; reflexivity.
Qed.

(** C4 (prefix on every output), refuted as a defect: with [--prefix P
    --nopairing], [main] calls [writeTIRs] without the prefix (line 120),
    so the TIR records of that run are named without it, while the pairing
    run passes [prefix=args.prefix] (line 133) and prefixes them. *)
Theorem nopairing_tir_names_unprefixed :
  main nopairing_args sample_env
  = ([DoChecks; ImportFasta; RunCmds; WriteTIRs None 1 ["TIR1_1"; "TIR1_2"]; RmTree], Exit 1)
  /\ String.prefix "P" "TIR1_1" = false
  /\ In (WriteTIRs (Some "P") 1 ["P_TIR1_1"; "P_TIR1_2"]) (fst (main sample_args sample_env)).
Proof.
  split; [reflexivity|]; split; [reflexivity|].
  vm_compute; tauto.
Qed.

(** C5 (no hits), counterexample: when nhmmer left no [.tab] file, [main]
    does not exit with status 0; it prints its message and calls
    [sys.exit(1)]. *)
Lemma no_hits_exit_status_counterexample :
  snd (main sample_args no_hits_env) <> Exit 0
  /\ main sample_args no_hits_env
     = ([DoChecks; ImportFasta; RunCmds;
         Print "No hits found in /tmp/tirmite/hmmerResults . Quitting."], Exit 1).
Proof. split; [discriminate | reflexivity]. Qed.

(** C5 (no hits), as amended: on the nhmmer path, when no [.tab] result
    file exists, [main] prints "No hits found in <resultDir> . Quitting."
    and stops through [sys.exit(1)] (exit status 1, no exception), without
    any later step. *)
Theorem no_hits_exit (a : Args) (env : Env)
  (Hb : useBowtie2 a = false) (Ht : tab_files_exist env = false) :
  main a env
  = (warnings a env ++ [DoChecks; ImportFasta] ++ conv_log a
       ++ [RunCmds; Print ("No hits found in " ++ result_dir env ++ " . Quitting.")], Exit 1)%list.
Proof.
  rewrite main_eq, search_hits_eq, Hb, Ht; reflexivity.
Qed.

Lemma no_hits_exit_witness :
  useBowtie2 sample_args = false /\ tab_files_exist no_hits_env = false
  /\ main sample_args no_hits_env
     = (warnings sample_args no_hits_env ++ [DoChecks; ImportFasta] ++ conv_log sample_args
          ++ [RunCmds; Print ("No hits found in " ++ result_dir no_hits_env ++ " . Quitting.")],
        Exit 1)%list.
Proof.
  split; [reflexivity|]; split; [reflexivity|].
  apply no_hits_exit; reflexivity.
Defined.

(** C6 (maxeval is an output filter only): changing [maxeval] changes
    nothing [main] does apart from the records [writeTIRs] keeps; in
    particular the paired/unpaired sets handed on by [iterateGetPairs] and
    the elements are the same.  Every committed pair yields an element with
    both arms, whatever their e-values. *)
Theorem maxeval_only_filters_output (a : Args) (env : Env) (me : nat) :
  map erase_maxeval (fst (main (set_maxeval a me) env)) = map erase_maxeval (fst (main a env))
  /\ snd (main (set_maxeval a me) env) = snd (main a env)
  /\ (forall recs x y,
        In (x, y) (fst (iterateGetPairs (stableReps a) (maxdist a) (index_hits recs))) ->
        exists e, In e (fetchElements (index_hits recs)
                          (fst (iterateGetPairs (stableReps a) (maxdist a) (index_hits recs))))
                  /\ ele_left e = x /\ ele_right e = y).
Proof.
  destruct (main_set_maxeval_parts a me env) as (Hs & Hw & Hg & Hr).
  split; [|split].
  - rewrite !main_eq, Hs, Hw, Hr.
    destruct (search_hits a env) as [ls [hits|c]]; [|reflexivity].
    unfold set_maxeval; cbn [nopairing stableReps maxdist prefix maxeval].
    fold (set_maxeval a me).
    destruct (nopairing a); [cbn [fst]; rewrite !map_app; reflexivity|].
    destruct (iterateGetPairs (stableReps a) (maxdist a) (index_hits hits)) as [pd up].
    rewrite Hg; cbn [fst]; rewrite !map_app; reflexivity.
  - rewrite !main_eq, Hs.
    destruct (search_hits a env) as [ls [hits|c]]; [|reflexivity].
    unfold set_maxeval; cbn [nopairing stableReps maxdist prefix maxeval].
    destruct (nopairing a); [reflexivity|].
    destruct (iterateGetPairs (stableReps a) (maxdist a) (index_hits hits)); reflexivity.
  - intros recs x y Hin.
    apply pair_element; [apply NoDup_index | exact Hin |].
    destruct (iterateGetPairs_pair_compatible _ _ _ x y (NoDup_index recs) Hin)
      as (hx & hy & Hx & Hy & Ex & Ey & _).
    exists hx, hy; auto.
Qed.

(** C7 (termination of a group): for every group [g] and every
    [stableReps], the pairing loop reaches its end through rounds taken only
    while [stop] is false and halts at the first state where it is true; at
    that state either no unpaired hit has a remaining candidate, or
    [stableReps + 1] consecutive rounds produced no pair.  The unpaired ids
    reported are exactly the hits of the group left without a partner. *)
Theorem pairing_loop_terminates (sr : nat) (md : option nat) (g : list Hit) :
  LoopRuns sr md g init_state (run_group sr md g)
  /\ ((forall h, In h g -> partner (run_group sr md g) (hid h) = None ->
                 remaining md g (partner (run_group sr md g)) h = [])
      \/ idle (run_group sr md g) = S sr)
  /\ (forall i, In i (unpaired_of g (partner (run_group sr md g)))
                <-> exists h, In h g /\ hid h = i /\ partner (run_group sr md g) i = None).
Proof.
  pose proof (run_group_runs sr md g) as Hr.
  split; [exact Hr|]; split; [|intros i; apply unpaired_of_In].
  destruct (LoopRuns_final sr md g _ _ Hr (Nat.le_0_l _)) as [Hs Hi].
  apply stop_iff in Hs as [H | H]; [left; exact H | right; lia].
Qed.

(** C8 (missing tools only warn): the tool check of [main] never stops
    the run.  It looks up the seven configured tools, prints the warning
    naming exactly the ones [shutil.which] does not find (nothing when all
    are found), and [main] always goes on to [dochecks]. *)
Theorem missing_tools_only_warn (a : Args) (env : Env) :
  check_tools a env = (warnings a env, Ok tt)
  /\ (exists rest, fst (main a env) = (warnings a env ++ DoChecks :: rest)%list)
  /\ (forall t, In t (missing_tools a env) <-> In t (tools a) /\ on_path env t = false)
  /\ (missing_tools a env = [] -> warnings a env = [])
  /\ (missing_tools a env <> [] ->
      warnings a env = [Print (warning_msg (missing_tools a env));
                        Print "You may need to install them to use all features."]).
Proof.
  split; [apply check_tools_eq|]; split; [|split; [|split]].
  - rewrite main_eq; destruct (search_hits a env) as [ls [hits|c]].
    + destruct (nopairing a); [eexists; reflexivity|].
      destruct (iterateGetPairs (stableReps a) (maxdist a) (index_hits hits)).
      eexists; reflexivity.
    + eexists; reflexivity.
  - intros t; unfold missing_tools; rewrite in_flat_map; split.
    + intros (t' & Hin & Ht); unfold missing_tool in Ht.
      destruct (on_path env t') eqn:E; [contradiction|].
      destruct Ht as [<- | []]; auto.
    + intros [Hin Hp]; exists t; split; [exact Hin|].
      unfold missing_tool; rewrite Hp; left; reflexivity.
  - unfold warnings; intros ->; reflexivity.
  - unfold warnings; destruct (missing_tools a env); [contradiction | reflexivity].
Qed.

(** C9 (--nopairing exits with status 1): with [--nopairing] the run
    always ends in [sys.exit(1)] and never reaches the pairing, element or
    GFF steps; once hits were imported, its last steps are [writeTIRs]
    followed by the removal of the temp directory unless [--keeptemp]. *)
Theorem nopairing_exit_status_1 (a : Args) (env : Env) (Hn : nopairing a = true) :
  snd (main a env) = Exit 1
  /\ forallb (fun e => negb (is_pairing_event e)) (fst (main a env)) = true
  /\ (useBowtie2 a = true \/ tab_files_exist env = true ->
      exists pre,
        fst (main a env)
        = (pre ++ WriteTIRs None (maxeval a)
                    (tir_names None (maxeval a)
                       (index_hits (if useBowtie2 a then mapped_hits env else nhmmer_hits env)))
               :: rm_log a)%list).
Proof.
  assert (Hrm : forallb (fun e => negb (is_pairing_event e)) (rm_log a) = true)
    by (unfold rm_log; destruct (keeptemp a); reflexivity).
  assert (Hcv : forallb (fun e => negb (is_pairing_event e)) (conv_log a) = true)
    by (unfold conv_log; destruct (alnGiven a); reflexivity).
  rewrite main_eq, search_hits_eq.
  destruct (useBowtie2 a); [|destruct (tab_files_exist env)]; try rewrite Hn; cbn [fst snd].
  - split; [reflexivity|]; split.
    + rewrite !forallb_app, warnings_no_pairing; cbn; exact Hrm.
    + intros _; eexists; rewrite !app_assoc; reflexivity.
  - split; [reflexivity|]; split.
    + rewrite !forallb_app, warnings_no_pairing, Hcv; cbn; exact Hrm.
    + intros _; eexists; rewrite !app_assoc; reflexivity.
  - split; [reflexivity|]; split.
    + rewrite !forallb_app, warnings_no_pairing, Hcv; reflexivity.
    + intros [H | H]; discriminate.
Qed.

Lemma nopairing_exit_status_1_witness :
  nopairing nopairing_args = true
  /\ snd (main nopairing_args sample_env) = Exit 1
  /\ forallb (fun e => negb (is_pairing_event e)) (fst (main nopairing_args sample_env)) = true
  /\ (useBowtie2 nopairing_args = true \/ tab_files_exist sample_env = true ->
      exists pre,
        fst (main nopairing_args sample_env)
        = (pre ++ WriteTIRs None (maxeval nopairing_args)
                    (tir_names None (maxeval nopairing_args)
                       (index_hits (if useBowtie2 nopairing_args then mapped_hits sample_env
                                    else nhmmer_hits sample_env)))
               :: rm_log nopairing_args)%list).
Proof.
  split; [reflexivity|]. apply nopairing_exit_status_1; reflexivity.
Defined.

(** C10 (temp directory): when [--keeptemp] is unset, a run that
    completes ends by removing the temp directory, and so does the
    [--nopairing] exit (status 1) once hits were imported; the no-hits exit
    of the nhmmer path never removes it, whatever [--keeptemp] says. *)
Theorem tempdir_cleanup (a : Args) (env : Env) :
  (snd (main a env) = Ok tt -> keeptemp a = false ->
   exists pre, fst (main a env) = (pre ++ [RmTree])%list)
  /\ (nopairing a = true -> keeptemp a = false ->
      useBowtie2 a = true \/ tab_files_exist env = true ->
      In RmTree (fst (main a env)) /\ snd (main a env) = Exit 1)
  /\ (useBowtie2 a = false -> tab_files_exist env = false ->
      ~ In RmTree (fst (main a env)) /\ snd (main a env) = Exit 1).
Proof.
  split; [|split].
  - intros Hok Hk; rewrite main_eq in *.
    destruct (search_hits a env) as [ls [hits|c]]; [|discriminate].
    destruct (nopairing a); [discriminate|].
    cbv zeta; destruct (iterateGetPairs (stableReps a) (maxdist a) (index_hits hits)) as [pd up].
    unfold rm_log; rewrite Hk; cbn [fst].
    eexists; rewrite !app_assoc; reflexivity.
  - intros Hn Hk Hh; rewrite main_eq, search_hits_eq.
    unfold rm_log; rewrite Hk.
    destruct (useBowtie2 a); [|destruct (tab_files_exist env); [|destruct Hh; discriminate]];
      rewrite Hn; cbn [fst snd]; split; try reflexivity;
      rewrite !in_app_iff; cbn; tauto.
  - intros Hb Ht; rewrite main_eq, search_hits_eq, Hb, Ht; cbn [fst snd]; split; [|reflexivity].
    intros Hin; apply in_app_or in Hin as [Hin | Hin]; [exact (warnings_no_rmtree a env Hin)|].
    unfold conv_log in Hin; destruct (alnGiven a); simpl in Hin; intuition discriminate.
Qed.

(* ------------------------------------------------------------------ *)
(** * Further properties of the driver *)

(** ** Helper lemmas *)

Lemma warnings_print a env e : In e (warnings a env) -> exists m, e = Print m.
Proof.
  unfold warnings; destruct (missing_tools a env); [intros []|].
  intros [H | [H | []]]; subst; eauto.
Qed.

Lemma write_gff_events a idx eles unp e :
  In e (fst (write_gff a idx eles unp)) ->
  (e = FetchUnpaired /\ gffOut a <> None /\ (reportTIR a = RAll \/ reportTIR a = RUnpaired))
  \/ (exists out n, gffOut a = Some out /\ e = GffWrite out (prefix a) n).
Proof.
  unfold write_gff; destruct (gffOut a) as [out|]; [|intros []].
  destruct (reportTIR a) eqn:R; cbn;
    intros H; repeat destruct H as [H | H]; subst; try contradiction;
    first [ right; do 2 eexists; split; reflexivity
          | left; split; [reflexivity | split; [discriminate | auto]] ].
Qed.



Lemma write_gff_tail a idx eles unp :
  forallb is_gff_or_rm (fst (write_gff a idx eles unp)) = true.
Proof.
  unfold write_gff; destruct (gffOut a); [|reflexivity].
  destruct (reportTIR a); reflexivity.
Qed.


Lemma missing_tools_all a env : missing_tools a (with_all_tools env) = [].
Proof. reflexivity. Qed.

(** Case analysis on the whole run of [main]. *)
Ltac main_cases a env :=
  rewrite ?main_eq, ?search_hits_eq in *; unfold conv_log, rm_log in *;
  destruct (alnGiven a) eqn:Hal, (keeptemp a) eqn:Hk;
  (destruct (useBowtie2 a) eqn:Hb; [|destruct (tab_files_exist env) eqn:Ht]);
  destruct (nopairing a) eqn:Hn; cbv zeta in *;
  try match goal with
      | |- context [iterateGetPairs ?x ?y ?z] => destruct (iterateGetPairs x y z) as [pd up] eqn:Hp
      | _ : context [iterateGetPairs ?x ?y ?z] |- _ =>
          destruct (iterateGetPairs x y z) as [pd up] eqn:Hp
      end.

(** Splits a hypothesis [In e trace] into one case per position. *)
Ltac in_trace H :=
  repeat ((rewrite in_app_iff in H) || (progress (cbn [In] in H)));
  repeat match type of H with _ \/ _ => destruct H as [H | H] end;
  try contradiction;
  try discriminate;
  try (apply warnings_print in H as [? H]; discriminate);
  try (apply write_gff_events in H as [(H & _) | (? & ? & _ & H)]; discriminate).

(** ** Properties *)

(** [main] exits with status 0 exactly when pairing is on and hits were
    imported; every other run ends in [sys.exit(1)]. *)
Theorem main_exit_status (a : Args) (env : Env) :
  snd (main a env)
  = if nopairing a || negb (useBowtie2 a) && negb (tab_files_exist env) then Exit 1 else Ok tt.
Proof. main_cases a env; reflexivity. Qed.


(** Alignments are converted only on the nhmmer path and only when
    [--alnDir] or [--alnFile] was given. *)
Theorem main_convert_align (a : Args) (env : Env) :
  In ConvertAlign (fst (main a env)) <-> useBowtie2 a = false /\ alnGiven a = true.
Proof.
  main_cases a env; cbn [fst];
    split; intros H; try (destruct H; discriminate); try (split; reflexivity);
    try (in_trace H; fail);
    rewrite ?in_app_iff; cbn [In]; auto 10.
Qed.

(** Every run loads the genome and runs the search commands before
    anything else can happen; only the tool warning comes earlier. *)
Theorem main_prologue (a : Args) (env : Env) :
  exists rest,
    fst (main a env)
    = (warnings a env ++ DoChecks :: ImportFasta
         :: (if useBowtie2 a then [] else conv_log a) ++ RunCmds :: rest)%list.
Proof. main_cases a env; cbn [fst app]; eexists; reflexivity. Qed.

Lemma filter_warnings (f : Event -> bool) a env :
  (forall m, f (Print m) = false) -> filter f (warnings a env) = [].
Proof.
  intros Hf; unfold warnings; destruct (missing_tools a env); [reflexivity|].
  cbn [filter]; rewrite !Hf; reflexivity.
Qed.

Lemma filter_write_gff (f : Event -> bool) a idx eles unp :
  f FetchUnpaired = false -> (forall p pf n, f (GffWrite p pf n) = false) ->
  filter f (fst (write_gff a idx eles unp)) = [].
Proof.
  intros H1 H2; unfold write_gff; destruct (gffOut a); [|reflexivity].
  destruct (reportTIR a); cbn [bind emit ret fst app filter]; rewrite ?H1, ?H2; reflexivity.
Qed.

(** [writeTIRs] is called once in every run that imported hits, and never
    on the no-hits exit. *)
Theorem main_write_tirs_once (a : Args) (env : Env) :
  List.length (filter is_write_tirs (fst (main a env)))
  = if useBowtie2 a || tab_files_exist env then 1 else 0.
Proof.
  main_cases a env; cbn [fst];
    rewrite ?filter_app, ?length_app, (filter_warnings is_write_tirs) by reflexivity;
    rewrite ?(filter_write_gff is_write_tirs) by reflexivity; reflexivity.
Qed.



Lemma two_app {A} (x y : A) : [x; y] = ([x] ++ [y])%list.
Proof. reflexivity. Qed.

(** Whenever the temporary directory is removed, that is the last thing
    the run does, and it is done once. *)
Theorem main_rmtree_last (a : Args) (env : Env) (H : In RmTree (fst (main a env))) :
  exists pre, fst (main a env) = (pre ++ [RmTree])%list /\ ~ In RmTree pre.
Proof.
  main_cases a env; cbn [fst] in *; try (in_trace H; fail);
    rewrite ?(two_app _ RmTree), !app_assoc;
    (eexists; split; [reflexivity | intros H'; in_trace H']).
Qed.

Lemma main_rmtree_last_witness :
  In RmTree (fst (main sample_args sample_env))
  /\ exists pre, fst (main sample_args sample_env) = (pre ++ [RmTree])%list /\ ~ In RmTree pre.
Proof.
  assert (H : In RmTree (fst (main sample_args sample_env))) by (vm_compute; tauto).
  split; [exact H | exact (main_rmtree_last sample_args sample_env H)].
Defined.

(** In a pairing run that imported hits, candidate search, pairing,
    [writeTIRs] and [writeElements] happen in this order, with the run's
    [--maxdist], [--stableReps], [--maxeval] and [--prefix]; nothing of
    them happens before, and only the GFF3 steps and the clean-up come
    after. *)
Theorem main_pairing_steps (a : Args) (env : Env)
  (Hnp : nopairing a = false) (Hhit : useBowtie2 a = true \/ tab_files_exist env = true) :
  let idx := index_hits (if useBowtie2 a then mapped_hits env else nhmmer_hits env) in
  let '(paired, unpaired) := iterateGetPairs (stableReps a) (maxdist a) idx in
  exists pre post,
    fst (main a env)
    = (pre ++ [ParseHits (maxdist a); IterateGetPairs_ev (stableReps a) paired unpaired;
               WriteTIRs (prefix a) (maxeval a) (tir_names (prefix a) (maxeval a) idx);
               WriteElements (prefix a) (element_names (prefix a) (fetchElements idx paired))]
           ++ post)%list
    /\ forallb (fun e => negb (is_pairing_event e) && negb (is_write_tirs e)) pre = true
    /\ forallb is_gff_or_rm post = true.
Proof.
  main_cases a env; try discriminate; try (destruct Hhit; discriminate);
    cbv beta iota; cbn [fst].
  all: match goal with
       | |- exists pre post, (?W ++ ?DI ++ ?LS ++ _ ++ ?REST)%list = _ /\ _ =>
           exists (W ++ DI ++ LS)%list, REST
       end.
  all: split; [rewrite <- !app_assoc; reflexivity|].
  all: split; [rewrite !forallb_app; unfold warnings; destruct (missing_tools a env); reflexivity
              | rewrite !forallb_app, write_gff_tail; reflexivity].
Qed.

Lemma main_pairing_steps_witness :
  nopairing sample_args = false
  /\ (useBowtie2 sample_args = true \/ tab_files_exist sample_env = true)
  /\ (let idx := index_hits (if useBowtie2 sample_args then mapped_hits sample_env
                             else nhmmer_hits sample_env) in
      let '(paired, unpaired) := iterateGetPairs (stableReps sample_args) (maxdist sample_args) idx in
      exists pre post,
        fst (main sample_args sample_env)
        = (pre ++ [ParseHits (maxdist sample_args);
                   IterateGetPairs_ev (stableReps sample_args) paired unpaired;
                   WriteTIRs (prefix sample_args) (maxeval sample_args)
                     (tir_names (prefix sample_args) (maxeval sample_args) idx);
                   WriteElements (prefix sample_args)
                     (element_names (prefix sample_args) (fetchElements idx paired))]
               ++ post)%list
        /\ forallb (fun e => negb (is_pairing_event e) && negb (is_write_tirs e)) pre = true
        /\ forallb is_gff_or_rm post = true).
Proof.
  split; [reflexivity|]; split; [right; reflexivity|].
  apply main_pairing_steps; [reflexivity | right; reflexivity].
Defined.

(** The [prefix] handed to [writeTIRs], [writeElements] and [gffWrite] is
    [args.prefix] in a pairing run and none in a [--nopairing] run. *)
Theorem main_writer_prefix (a : Args) (env : Env) (e : Event) (pf : option string)
  (Hin : In e (fst (main a env))) (He : event_prefix e = Some pf) :
  pf = if nopairing a then None else prefix a.
Proof.
  main_cases a env; cbn [fst] in Hin;
    repeat ((rewrite in_app_iff in Hin) || (progress (cbn [In] in Hin)));
    repeat match type of Hin with _ \/ _ => destruct Hin as [Hin | Hin] end;
    try contradiction;
    try (subst e; cbn in He; congruence);
    try (apply warnings_print in Hin as [m ->]; discriminate);
    (apply write_gff_events in Hin as [(-> & _) | (o & m & _ & ->)];
     cbn in He; congruence).
Qed.

Lemma main_writer_prefix_witness :
  In (WriteElements (Some "P") ["P_TIR1_Element_1"]) (fst (main sample_args sample_env))
  /\ event_prefix (WriteElements (Some "P") ["P_TIR1_Element_1"]) = Some (Some "P")
  /\ Some "P" = (if nopairing sample_args then None else prefix sample_args).
Proof.
  assert (H : In (WriteElements (Some "P") ["P_TIR1_Element_1"]) (fst (main sample_args sample_env)))
    by (vm_compute; tauto).
  split; [exact H|]; split; [reflexivity|].
  exact (main_writer_prefix sample_args sample_env _ _ H eq_refl).
Defined.

Lemma warnings_ext a env1 env2 :
  (forall t, on_path env1 t = on_path env2 t) -> warnings a env1 = warnings a env2.
Proof.
  intros Hp; unfold warnings, missing_tools, tools; cbn [flat_map]; unfold missing_tool.
  rewrite !Hp; reflexivity.
Qed.



(** With [--useBowtie2] the nhmmer results ([resultDir], its [.tab] files)
    are never looked at: runs that see the same tools and the same bowtie2
    mappings behave alike. *)
Theorem main_bowtie2_ignores_nhmmer (a : Args) (env1 env2 : Env)
  (Hb : useBowtie2 a = true)
  (Hp : forall t, on_path env1 t = on_path env2 t)
  (Hm : mapped_hits env1 = mapped_hits env2) :
  main a env1 = main a env2.
Proof.
  rewrite !main_eq, !search_hits_eq, Hb, Hm, (warnings_ext a env1 env2 Hp); reflexivity.
Qed.

Lemma main_bowtie2_ignores_nhmmer_witness :
  useBowtie2 bowtie_args = true
  /\ (forall t, on_path sample_env t = on_path no_hits_env t)
  /\ mapped_hits sample_env = mapped_hits no_hits_env
  /\ main bowtie_args sample_env = main bowtie_args no_hits_env.
Proof.
  assert (Hp : forall t, on_path sample_env t = on_path no_hits_env t) by reflexivity.
  split; [reflexivity|]; split; [exact Hp|]; split; [reflexivity|].
  exact (main_bowtie2_ignores_nhmmer bowtie_args sample_env no_hits_env eq_refl Hp eq_refl).
Defined.

(** Without [--useBowtie2] the bowtie2 mappings are never looked at. *)
Theorem main_nhmmer_ignores_bowtie2 (a : Args) (env1 env2 : Env)
  (Hb : useBowtie2 a = false)
  (Hp : forall t, on_path env1 t = on_path env2 t)
  (Hr : result_dir env1 = result_dir env2)
  (Ht : tab_files_exist env1 = tab_files_exist env2)
  (Hh : nhmmer_hits env1 = nhmmer_hits env2) :
  main a env1 = main a env2.
Proof.
  rewrite !main_eq, !search_hits_eq, Hb, Hr, Ht, Hh, (warnings_ext a env1 env2 Hp);
    reflexivity.
Qed.

Lemma main_nhmmer_ignores_bowtie2_witness :
  let env2 := mkEnv (fun _ => true) "/tmp/tirmite/hmmerResults" true sample_hits
                [hr "chr2" 5 25 Plus 0] in
  useBowtie2 sample_args = false
  /\ (forall t, on_path sample_env t = on_path env2 t)
  /\ result_dir sample_env = result_dir env2
  /\ tab_files_exist sample_env = tab_files_exist env2
  /\ nhmmer_hits sample_env = nhmmer_hits env2
  /\ main sample_args sample_env = main sample_args env2.
Proof.
  intros env2.
  assert (Hp : forall t, on_path sample_env t = on_path env2 t) by reflexivity.
  split; [reflexivity|]; split; [exact Hp|]; split; [reflexivity|]; split; [reflexivity|];
    split; [reflexivity|].
  exact (main_nhmmer_ignores_bowtie2 sample_args sample_env env2 eq_refl Hp
           eq_refl eq_refl eq_refl).
Defined.




